(** * influxdb: the user model of user.go

    A shallow embedding of [user.go] (package [influxdb]): the status and
    user validators, the [UserUpdate] changeset, the error wrapper
    [ErrInternalUserServiceError], the JSON field tags of [User], and a
    model of the service behind the [UserService] interface.

    Go strings are byte strings ([string]); a pointer field that may be
    [nil] is an [option]; a Go [error] interface value is the inductive
    [error] below; a method [T.m] is the definition [m] of [Module T]. *)

From Stdlib Require Import String Ascii List NArith Bool.
From stdpp Require Import gmap strings.

Local Open Scope string_scope.

(** ** Errors *)

(** Modelled from the spec: the error codes [EInvalid], [ENotFound] and
    [EInternal] are constants declared outside user.go; the spec names the
    three kinds Invalid, NotFound and Internal. *)
Inductive ErrorCode := EInvalid | ENotFound | EInternal.

(** A Go [error] interface value: [enil] is the nil interface, [eother] a
    value of a type of another package, known by the string its [Error()]
    method returns, and [eError] a [*Error] with its four fields.  An
    interface that holds a nil [*Error] pointer is not represented. *)
Inductive error : Type :=
  | enil
  | eother (msg : string)
  | eError (code : ErrorCode) (msg : string) (op : string) (err : error).

(** Modelled from the spec: the struct [Error] is declared outside user.go;
    user.go fills its fields [Code], [Msg], [Op] and [Err], and the spec
    describes it as "a structured error value carrying kind, message,
    operation name, optional wrapped cause". *)
Record Error := mkError
  { Code : ErrorCode; Msg : string; Op : string; Err : error }.

(** A [*Error] returned where an [error] is expected. *)
Definition as_error (e : Error) : error :=
  eError (Code e) (Msg e) (Op e) (Err e).

(** [err != nil] *)
Definition is_nil (e : error) : bool :=
  match e with enil => true | _ => false end.

(** ** Status validation *)

(** [type UserStatus string] *)
Definition UserStatus := string.

Module UserStatus.

(** [func (u *UserStatus) Valid() error], on the value the receiver points
    to. *)
Definition Valid (u : UserStatus) : error :=
  if negb (String.eqb u "active") && negb (String.eqb u "inactive") then
    as_error {| Code := EInvalid; Msg := "Invalid user status";
                Op := ""; Err := enil |}
  else enil.

End UserStatus.

(** Modelled from the spec: the type [Status] of the field [User.Status]
    and its method [Valid] are declared outside user.go.  The spec gives a
    status the rule of [UserStatus.Valid]: "one of the enumerated values
    active | inactive; required; any other value is invalid", and a status
    that fails validation "fails with Invalid". *)
Definition Status := string.

Module Status.

(** Modelled from the spec: [Status.Valid], missing from user.go; it
    succeeds on the two literals and fails with Invalid on any other
    string, as [UserStatus.Valid] does. *)
Definition Valid (s : Status) : error := UserStatus.Valid s.

End Status.

(** ** Users *)

(** Modelled from the spec: the type [ID] is declared outside user.go; an
    identifier is opaque and has one "unset (empty)" value.  It is taken as
    an unsigned number whose zero value is the unset identifier. *)
Definition ID := N.

Module User.

(** [type User struct] *)
Record t := mk
  { ID : ID; Name : string; OAuthID : string; Status : Status }.

(** [func (u *User) Valid() error] *)
Definition Valid (u : t) : error := Status.Valid (Status u).

End User.

(** Ops for user errors and op log. *)
Definition OpFindUserByID := "FindUserByID".
Definition OpFindUser := "FindUser".
Definition OpFindUsers := "FindUsers".
Definition OpCreateUser := "CreateUser".
Definition OpPutUser := "PutUser".
Definition OpUpdateUser := "UpdateUser".
Definition OpDeleteUser := "DeleteUser".

Module UserUpdate.

(** [type UserUpdate struct]: a [nil] pointer is [None]. *)
Record t := mk { Name : option string; Status : option Status }.

(** [func (uu UserUpdate) Valid() error] *)
Definition Valid (uu : t) : error :=
  match Status uu with
  | None => enil
  | Some s => Status.Valid s
  end.

End UserUpdate.

Module UserFilter.

(** [type UserFilter struct] *)
Record t := mk { ID : option ID; Name : option string }.

End UserFilter.

(** ** The external representation of a [User]

    The struct tags of [User] drive [encoding/json]: a field is written
    under the name of its tag, in the order of the struct, and a field
    tagged [omitempty] is left out when its value is the empty value of
    its kind (the number zero, the string of length zero). *)

Inductive FieldValue := VID (i : ID) | VString (s : string).

Record FieldTag := mkTag { json_name : string; omitempty : bool }.

(** The four tagged fields of [User], in the order of the struct. *)
Definition User_fields (u : User.t) : list (FieldTag * FieldValue) :=
  [ (mkTag "id" true, VID (User.ID u));
    (mkTag "name" false, VString (User.Name u));
    (mkTag "oauthID" true, VString (User.OAuthID u));
    (mkTag "status" false, VString (User.Status u)) ].

(** [isEmptyValue] of [encoding/json], on the two kinds that occur. *)
Definition isEmptyValue (v : FieldValue) : bool :=
  match v with
  | VID i => N.eqb i 0
  | VString s => String.eqb s ""
  end.

(** The members of the JSON object written for a struct. *)
Fixpoint encode_fields (fs : list (FieldTag * FieldValue))
  : list (string * FieldValue) :=
  match fs with
  | [] => []
  | (tag, v) :: fs' =>
      if omitempty tag && isEmptyValue v then encode_fields fs'
      else (json_name tag, v) :: encode_fields fs'
  end.

Definition User_Marshal (u : User.t) : list (string * FieldValue) :=
  encode_fields (User_fields u).

(** ** Error wrapping and the service *)

Section Service.

(** The method [Error()] of [*Error], declared outside user.go. *)
Variable Error_Error : Error -> string.

(** What the verb [%v] of package [fmt] prints for an [error] operand: the
    nil interface prints as [<nil>], any other error as the string its
    [Error()] method returns. *)
Definition format_v (err : error) : string :=
  match err with
  | enil => "<nil>"
  | eother msg => msg
  | eError c m o e => Error_Error (mkError c m o e)
  end.

(** [fmt.Sprintf] on formats made of text without a percent sign and of
    the verb [%v], with [error] operands; a verb without an operand prints
    as [%!v(MISSING)]. *)
Fixpoint Sprintf (format : string) (args : list error) : string :=
  match format with
  | EmptyString => ""
  | String c rest =>
      match rest with
      | String c' rest' =>
          if Ascii.eqb c "%" && Ascii.eqb c' "v" then
            match args with
            | a :: args' => format_v a ++ Sprintf rest' args'
            | [] => "%!v(MISSING)" ++ Sprintf rest' []
            end
          else String c (Sprintf rest args)
      | EmptyString => String c ""
      end
  end.

(** [func ErrInternalUserServiceError(op string, err error) *Error] *)
Definition ErrInternalUserServiceError (op : string) (err : error) : Error :=
  {| Code := EInternal;
     Msg := Sprintf "unexpected error in users; Err: %v" [err];
     Op := op;
     Err := err |}.

(** The field [Err] of an error that is a [*Error]: the cause it wraps.
    Any other error has none. *)
Definition cause (err : error) : error :=
  match err with
  | eError _ _ _ c => c
  | _ => enil
  end.

(** The number of [*Error] values on the chain of causes of an error. *)
Fixpoint depth (err : error) : nat :=
  match err with
  | eError _ _ _ c => S (depth c)
  | _ => 0
  end.

(** [err] passed through [ErrInternalUserServiceError] once for each
    operation of [ops], the head of [ops] being the outermost call. *)
Fixpoint wrap_all (ops : list string) (err : error) : error :=
  match ops with
  | [] => err
  | op :: ops' => as_error (ErrInternalUserServiceError op (wrap_all ops' err))
  end.

(** ** The store

    No implementation of the interface [UserService] is part of user.go.
    The definitions below model the component of the spec, which
    "validates input, delegates to the store, and maps store errors into a
    uniform error envelope", over a store that keeps the records in a
    finite map, logs every call it receives, and fails every call while
    [fault] holds an error.  The [context.Context] parameter carries no
    data and is left out. *)

Inductive StoreCall :=
  | CallGet (id : ID)
  | CallInsert (u : User.t)
  | CallUpdate (id : ID) (upd : UserUpdate.t).

Record Store := mkStore
  { records : gmap ID User.t;
    lastID : ID;
    calls : list StoreCall;
    fault : error }.

(** What a Go function with a last result of type [error] returns. *)
Inductive result (A : Type) :=
  | Ok (a : A)
  | Fail (e : error).
Arguments Ok {A} a.
Arguments Fail {A} e.

(** Computations over the store that may fail. *)
Definition M (A : Type) : Type := Store -> result A * Store.

Definition ret {A} (a : A) : M A := fun st => (Ok a, st).

Definition fail {A} (e : error) : M A := fun st => (Fail e, st).

Definition bind {A B} (m : M A) (k : A -> M B) : M B :=
  fun st =>
    match m st with
    | (Ok a, st') => k a st'
    | (Fail e, st') => (Fail e, st')
    end.

Notation "'do' x <- m ; k" := (bind m (fun x => k))
  (at level 10, x name, m at level 100, k at level 200).

(** Modelled from the spec: every call to the store is logged, and fails
    with the store's own error while the store is faulty. *)
Definition invoke (c : StoreCall) : M unit :=
  fun st =>
    let st' := mkStore (records st) (lastID st) (calls st ++ [c]) (fault st) in
    if is_nil (fault st) then (Ok tt, st') else (Fail (fault st), st').

Definition set_ID (u : User.t) (id : ID) : User.t :=
  User.mk id (User.Name u) (User.OAuthID u) (User.Status u).

(** Modelled from the spec: a changeset replaces the fields that are
    present in it; "absent fields retain their prior value". *)
Definition apply_update (upd : UserUpdate.t) (u : User.t) : User.t :=
  User.mk (User.ID u)
    (match UserUpdate.Name upd with Some n => n | None => User.Name u end)
    (User.OAuthID u)
    (match UserUpdate.Status upd with Some s => s | None => User.Status u end).

(** Modelled from the spec: the store's lookup of one record. *)
Definition store_get (id : ID) : M (option User.t) :=
  do _ <- invoke (CallGet id);
  fun st => (Ok (records st !! id), st).

(** Modelled from the spec: the store allocates the identifier of a new
    record ("assigned by the store at creation time"); here the successor
    of the last one it allocated. *)
Definition store_insert (u : User.t) : M ID :=
  do _ <- invoke (CallInsert u);
  fun st =>
    let id := N.succ (lastID st) in
    (Ok id, mkStore (<[id := set_ID u id]> (records st)) id (calls st) (fault st)).

(** Modelled from the spec: the store applies a changeset to the record of
    an identifier, when there is one, and returns its new state. *)
Definition store_update (id : ID) (upd : UserUpdate.t) : M (option User.t) :=
  do _ <- invoke (CallUpdate id upd);
  fun st =>
    match records st !! id with
    | None => (Ok None, st)
    | Some old =>
        let new := apply_update upd old in
        (Ok (Some new),
         mkStore (<[id := new]> (records st)) (lastID st) (calls st) (fault st))
    end.

(** ** The service *)

(** Modelled from the spec: the NotFound error of "a lookup/update/delete
    [that] targeted an identifier with no corresponding record". *)
Definition ErrUserNotFound (op : string) : error :=
  as_error {| Code := ENotFound; Msg := "user not found"; Op := op; Err := enil |}.

(** Modelled from the spec: "any error returned by the underlying store,
    when not already a recognized domain error, must be wrapped with an
    internal classification that records the operation name and the
    original error message". *)
Definition classify (op : string) (err : error) : error :=
  match err with
  | eError EInvalid _ _ _ => err
  | eError ENotFound _ _ _ => err
  | _ => as_error (ErrInternalUserServiceError op err)
  end.

(** A call to the store made by the operation [op] of the service. *)
Definition at_store {A} (op : string) (m : M A) : M A :=
  fun st =>
    match m st with
    | (Fail e, st') => (Fail (classify op e), st')
    | r => r
    end.

(** Modelled from the spec: FindByID, "User or fails with NotFound if no
    record has that identifier". *)
Definition FindUserByID (id : ID) : M User.t :=
  do r <- at_store OpFindUserByID (store_get id);
  match r with
  | Some u => ret u
  | None => fail (ErrUserNotFound OpFindUserByID)
  end.

(** Modelled from the spec: Create, "on success, mutates the
    caller-supplied user value in place by assigning the newly allocated
    ID; fails with Invalid if user.Status fails validation before any store
    interaction is attempted".  The result is the value the caller's
    pointer holds after the call; on failure that value is untouched. *)
Definition CreateUser (u : User.t) : M User.t :=
  match User.Valid u with
  | enil =>
      do id <- at_store OpCreateUser (store_insert u);
      ret (set_ID u id)
  | e => fail e
  end.

(** Modelled from the spec: Update, "returns the full new state of the
    record after applying the changeset; fails with Invalid if the
    changeset's Status (when present) is not a recognized literal; fails
    with NotFound if id does not exist". *)
Definition UpdateUser (id : ID) (upd : UserUpdate.t) : M User.t :=
  match UserUpdate.Valid upd with
  | enil =>
      do r <- at_store OpUpdateUser (store_update id upd);
      match r with
      | Some u => ret u
      | None => fail (ErrUserNotFound OpUpdateUser)
      end
  | e => fail e
  end.

(** A store without records that has not been called and has no fault. *)
Definition empty_store : Store := mkStore ∅ 0%N [] enil.

End Service.

Arguments Ok {A} a.
Arguments Fail {A} e.

(** * Properties *)

(** ** Strings and errors *)

Lemma append_empty_r (s : string) : s ++ "" = s.
Proof.
  induction s as [|c s IH]; [reflexivity |].
  change (String c (s ++ "") = String c s). now f_equal.
Qed.

Lemma is_nil_true (e : error) : is_nil e = true <-> e = enil.
Proof. destruct e; simpl; split; congruence. Qed.

Lemma eError_not_self (e : error) :
  forall c m o, eError c m o e <> e.
Proof.
  induction e as [| msg | c' m' o' e' IH]; intros c m o H; try discriminate.
  injection H as _ _ _ H. exact (IH _ _ _ H).
Qed.

(** ** Validation *)

Lemma UserStatus_Valid_nil (s : UserStatus) :
  UserStatus.Valid s = enil <-> s = "active" \/ s = "inactive".
Proof.
  unfold UserStatus.Valid.
  destruct (String.eqb_spec s "active") as [Ha | Ha];
    destruct (String.eqb_spec s "inactive") as [Hi | Hi]; simpl;
    split; intros H; auto; try discriminate; destruct H; contradiction.
Qed.

Lemma UserStatus_Valid_cases (s : UserStatus) :
  UserStatus.Valid s = enil \/
  UserStatus.Valid s = eError EInvalid "Invalid user status" "" enil.
Proof.
  unfold UserStatus.Valid.
  destruct (negb (String.eqb s "active") && negb (String.eqb s "inactive"));
    [right | left]; reflexivity.
Qed.

(** C2. For every status [s] of type [UserStatus], [s.Valid()] returns no
    error iff [s] is exactly "active" or "inactive"; for any other string
    it returns the [*Error] with code [EInvalid] (and message "Invalid user
    status"). *)
Theorem UserStatus_Valid_spec (s : UserStatus) :
  (UserStatus.Valid s = enil <-> s = "active" \/ s = "inactive") /\
  (UserStatus.Valid s = enil \/
   exists e : Error,
     UserStatus.Valid s = as_error e /\ Code e = EInvalid /\
     Msg e = "Invalid user status" /\ ~ (s = "active" \/ s = "inactive")).
Proof.
  split; [apply UserStatus_Valid_nil |].
  destruct (UserStatus_Valid_cases s) as [H | H]; [left; exact H | right].
  exists (mkError EInvalid "Invalid user status" "" enil).
  repeat split; [exact H |].
  intros Hs. apply UserStatus_Valid_nil in Hs. congruence.
Qed.

(** C1. For every user [u], [u.Valid()] is the result of
    [u.Status.Valid()], so one succeeds iff the other does; [u] is valid iff
    its status is "active" or "inactive"; and the fields [ID], [Name] and
    [OAuthID] do not affect the result. *)
Theorem User_Valid_spec (u : User.t) :
  (User.Valid u = enil <-> Status.Valid (User.Status u) = enil) /\
  (User.Valid u = enil <->
   User.Status u = "active" \/ User.Status u = "inactive") /\
  (forall (id : ID) (name oauth : string),
     User.Valid (User.mk id name oauth (User.Status u)) = User.Valid u).
Proof.
  split; [reflexivity |]. split; [| reflexivity].
  unfold User.Valid, Status.Valid. apply UserStatus_Valid_nil.
Qed.

(** C3. For every changeset [c], [c.Valid()] succeeds whenever [c.Status]
    is nil, whatever [c.Name] is; when [c.Status] points to a status [s],
    [c.Valid()] is the result of [s.Valid()], so it succeeds iff
    [s.Valid()] succeeds. *)
Theorem UserUpdate_Valid_spec (c : UserUpdate.t) :
  (UserUpdate.Status c = None -> UserUpdate.Valid c = enil) /\
  (forall s : Status,
     UserUpdate.Status c = Some s ->
     UserUpdate.Valid c = Status.Valid s /\
     (UserUpdate.Valid c = enil <-> Status.Valid s = enil)).
Proof.
  unfold UserUpdate.Valid. split.
  - intros ->. reflexivity.
  - intros s ->. split; reflexivity.
Qed.

Lemma UserUpdate_Valid_spec_witness :
  UserUpdate.Valid (UserUpdate.mk (Some "Bob") None) = enil /\
  (UserUpdate.Valid (UserUpdate.mk None (Some "pending")) = enil <->
   Status.Valid "pending" = enil).
Proof.
  split.
  - apply (proj1 (UserUpdate_Valid_spec (UserUpdate.mk (Some "Bob") None))).
    reflexivity.
  - apply (proj2 (UserUpdate_Valid_spec (UserUpdate.mk None (Some "pending")))
             "pending").
    reflexivity.
Defined.

(** ** The external representation *)

(** C8. The external representation of a user is the record of the fields
    [id], [name], [oauthID], [status], in this order and under these
    names, where [id] is left out when the identifier is unset and
    [oauthID] when it is the empty string. *)
Theorem User_Marshal_fields (u : User.t) :
  User_Marshal u =
    ((if N.eqb (User.ID u) 0 then [] else [("id", VID (User.ID u))]) ++
     [("name", VString (User.Name u))] ++
     (if String.eqb (User.OAuthID u) "" then []
      else [("oauthID", VString (User.OAuthID u))]) ++
     [("status", VString (User.Status u))])%list.
Proof.
  unfold User_Marshal, User_fields. simpl.
  destruct (N.eqb (User.ID u) 0); destruct (String.eqb (User.OAuthID u) "");
    reflexivity.
Qed.

(** C10. The fields [name] and [status] are written for every user, also
    when they are the empty string (a user whose fields are all zero is
    written with [name] and [status] as empty strings); among the tags of
    [User], exactly those of [id] and [oauthID] carry [omitempty]. *)
Theorem User_Marshal_name_status (u : User.t) :
  In ("name", VString (User.Name u)) (User_Marshal u) /\
  In ("status", VString (User.Status u)) (User_Marshal u) /\
  User_Marshal (User.mk 0%N "" "" "") =
    [("name", VString ""); ("status", VString "")] /\
  map (fun f => (json_name (fst f), omitempty (fst f))) (User_fields u) =
    [("id", true); ("name", false); ("oauthID", true); ("status", false)].
Proof.
  unfold User_Marshal, User_fields. simpl.
  destruct (N.eqb (User.ID u) 0); destruct (String.eqb (User.OAuthID u) "");
    simpl; repeat split; auto 6.
Qed.

(** ** Error wrapping *)

Section ServiceProperties.

Variable Error_Error : Error -> string.

Lemma Sprintf_users (err : error) :
  Sprintf Error_Error "unexpected error in users; Err: %v" [err] =
  "unexpected error in users; Err: " ++ format_v Error_Error err.
Proof.
  cbn. now rewrite append_empty_r.
Qed.

(** C4. For every operation name [op] and every error [err],
    [ErrInternalUserServiceError(op, err)] has code [EInternal], its [Op]
    is [op], its [Err] is [err] itself, and its message ends with what [%v]
    prints for [err]: the string of [err.Error()] when [err] is not nil. *)
Theorem ErrInternalUserServiceError_spec (op : string) (err : error) :
  Code (ErrInternalUserServiceError Error_Error op err) = EInternal /\
  Op (ErrInternalUserServiceError Error_Error op err) = op /\
  Err (ErrInternalUserServiceError Error_Error op err) = err /\
  Msg (ErrInternalUserServiceError Error_Error op err) =
    "unexpected error in users; Err: " ++ format_v Error_Error err /\
  (forall msg : string,
     Msg (ErrInternalUserServiceError Error_Error op (eother msg)) =
       "unexpected error in users; Err: " ++ msg) /\
  (forall e : Error,
     Msg (ErrInternalUserServiceError Error_Error op (as_error e)) =
       "unexpected error in users; Err: " ++ Error_Error e).
Proof.
  repeat split.
  - apply Sprintf_users.
  - intros msg. apply Sprintf_users.
  - intros [c m o e]. apply Sprintf_users.
Qed.

(** C9. [ErrInternalUserServiceError] wraps whatever it is given: for
    every [op] and [err] the result has code [EInternal] and the message
    "unexpected error in users; Err: " followed by the formatting of [err],
    and is never [err] itself; this holds for a nil [err], whose formatting
    is [<nil>], and for an [err] that is a [*Error] of code [EInvalid] or
    [ENotFound], which is kept as the cause. *)
Theorem ErrInternalUserServiceError_unconditional (op : string) (err : error) :
  Code (ErrInternalUserServiceError Error_Error op err) = EInternal /\
  Msg (ErrInternalUserServiceError Error_Error op err) =
    "unexpected error in users; Err: " ++ format_v Error_Error err /\
  as_error (ErrInternalUserServiceError Error_Error op err) <> err /\
  ErrInternalUserServiceError Error_Error op enil =
    mkError EInternal "unexpected error in users; Err: <nil>" op enil /\
  (forall (c : ErrorCode) (m o : string) (cause : error),
     ErrInternalUserServiceError Error_Error op (eError c m o cause) =
       mkError EInternal
         ("unexpected error in users; Err: " ++ Error_Error (mkError c m o cause))
         op (eError c m o cause)).
Proof.
  split; [reflexivity |]. split; [apply Sprintf_users |].
  split; [apply eError_not_self |]. split; [reflexivity |].
  intros c m o cause. unfold ErrInternalUserServiceError.
  now rewrite Sprintf_users.
Qed.

(** ** The service *)

(** The store after it has logged the call [c]. *)
Lemma invoke_eq (c : StoreCall) (st : Store) :
  invoke c st =
    (if is_nil (fault st) then Ok tt else Fail (fault st),
     mkStore (records st) (lastID st) (calls st ++ [c]) (fault st)).
Proof. unfold invoke. destruct (is_nil (fault st)); reflexivity. Qed.

Lemma Status_Valid_cases (s : Status) :
  Status.Valid s = enil \/
  Status.Valid s = eError EInvalid "Invalid user status" "" enil.
Proof. apply UserStatus_Valid_cases. Qed.

Lemma CreateUser_eq (u : User.t) (st : Store) :
  CreateUser Error_Error u st =
    match User.Valid u with
    | enil =>
        let id := N.succ (lastID st) in
        if is_nil (fault st) then
          (Ok (set_ID u id),
           mkStore (<[id := set_ID u id]> (records st)) id
             (calls st ++ [CallInsert u]) (fault st))
        else
          (Fail (classify Error_Error OpCreateUser (fault st)),
           mkStore (records st) (lastID st) (calls st ++ [CallInsert u])
             (fault st))
    | e => (Fail e, st)
    end.
Proof.
  unfold CreateUser. destruct (User.Valid u); try reflexivity.
  unfold bind, at_store, store_insert, bind. rewrite invoke_eq.
  destruct (is_nil (fault st)); reflexivity.
Qed.

Lemma UpdateUser_eq (id : ID) (upd : UserUpdate.t) (st : Store) :
  UpdateUser Error_Error id upd st =
    match UserUpdate.Valid upd with
    | enil =>
        let logged := (calls st ++ [CallUpdate id upd])%list in
        if is_nil (fault st) then
          match records st !! id with
          | Some old =>
              (Ok (apply_update upd old),
               mkStore (<[id := apply_update upd old]> (records st))
                 (lastID st) logged (fault st))
          | None =>
              (Fail (ErrUserNotFound OpUpdateUser),
               mkStore (records st) (lastID st) logged (fault st))
          end
        else
          (Fail (classify Error_Error OpUpdateUser (fault st)),
           mkStore (records st) (lastID st) logged (fault st))
    | e => (Fail e, st)
    end.
Proof.
  unfold UpdateUser. destruct (UserUpdate.Valid upd); try reflexivity.
  unfold bind, at_store, store_update, bind. rewrite invoke_eq.
  destruct (is_nil (fault st)); [| reflexivity]. cbn.
  destruct (records st !! id); reflexivity.
Qed.

Lemma FindUserByID_eq (id : ID) (st : Store) :
  FindUserByID Error_Error id st =
    (if is_nil (fault st) then
       match records st !! id with
       | Some u => Ok u
       | None => Fail (ErrUserNotFound OpFindUserByID)
       end
     else Fail (classify Error_Error OpFindUserByID (fault st)),
     mkStore (records st) (lastID st) (calls st ++ [CallGet id]) (fault st)).
Proof.
  unfold FindUserByID, bind, at_store, store_get, bind. rewrite invoke_eq.
  destruct (is_nil (fault st)); [| reflexivity]. cbn.
  destruct (records st !! id); reflexivity.
Qed.

Lemma CreateUser_Ok_inv (u u' : User.t) (st st' : Store) :
  CreateUser Error_Error u st = (Ok u', st') ->
  User.Valid u = enil /\ fault st = enil /\
  u' = set_ID u (N.succ (lastID st)) /\
  st' = mkStore (<[N.succ (lastID st) := u']> (records st))
          (N.succ (lastID st)) (calls st ++ [CallInsert u]) (fault st).
Proof.
  rewrite CreateUser_eq. destruct (User.Valid u); try discriminate.
  cbn. destruct (is_nil (fault st)) eqn:Hf; [| discriminate].
  apply is_nil_true in Hf. intros H. injection H as <- <-. auto.
Qed.

Lemma UpdateUser_records (id : ID) (upd : UserUpdate.t) (st : Store) :
  records (snd (UpdateUser Error_Error id upd st)) = records st \/
  exists old : User.t,
    records st !! id = Some old /\
    UpdateUser Error_Error id upd st =
      (Ok (apply_update upd old),
       mkStore (<[id := apply_update upd old]> (records st)) (lastID st)
         (calls st ++ [CallUpdate id upd]) (fault st)).
Proof.
  rewrite UpdateUser_eq. destruct (UserUpdate.Valid upd); auto.
  cbn. destruct (is_nil (fault st)); auto.
  destruct (records st !! id) as [old |]; eauto.
Qed.

(** C5. When the status of [u] fails validation, [CreateUser] fails with
    an error of code [EInvalid] and hands back the store as it was: no call
    to the store was made.  When the status is valid and the store has no
    fault, [CreateUser] succeeds with exactly one call to the store.  On
    every success the caller's user is [u] with its [ID] set to the
    identifier the store has just allocated, which is not the unset one,
    and the store holds that user under that identifier. *)
Theorem CreateUser_spec (st : Store) (u : User.t) :
  (Status.Valid (User.Status u) <> enil ->
   exists e : Error,
     CreateUser Error_Error u st = (Fail (as_error e), st) /\
     Code e = EInvalid) /\
  (Status.Valid (User.Status u) = enil -> fault st = enil ->
   exists (u' : User.t) (st' : Store),
     CreateUser Error_Error u st = (Ok u', st') /\
     calls st' = (calls st ++ [CallInsert u])%list) /\
  (forall (u' : User.t) (st' : Store),
     CreateUser Error_Error u st = (Ok u', st') ->
     User.ID u' <> 0%N /\
     User.ID u' = lastID st' /\
     lastID st' = N.succ (lastID st) /\
     u' = set_ID u (User.ID u') /\
     records st' !! User.ID u' = Some u').
Proof.
  split; [| split].
  - intros Hv. rewrite CreateUser_eq. unfold User.Valid.
    destruct (Status_Valid_cases (User.Status u)) as [H | H];
      [contradiction |].
    rewrite H. exists (mkError EInvalid "Invalid user status" "" enil).
    split; reflexivity.
  - intros Hv Hf. rewrite CreateUser_eq. unfold User.Valid.
    rewrite Hv, Hf. cbn. eauto.
  - intros u' st' H.
    destruct (CreateUser_Ok_inv _ _ _ _ H) as (_ & _ & -> & ->). cbn.
    repeat split; [apply N.neq_succ_0 | apply lookup_insert_eq].
Qed.

(** C6. [UpdateUser] on an existing record, with a valid changeset and a
    store without fault, returns the new state of the record, which the
    store then holds under [id]: [ID] and [OAuthID] are those of the prior
    state, and [Name] and [Status] are those of the changeset where it has
    them and those of the prior state where it has not.  Whatever the
    outcome, no record under another identifier is modified, and a failed
    update modifies no record. *)
Theorem UpdateUser_spec (st : Store) (id : ID) (upd : UserUpdate.t) :
  (forall old : User.t,
     records st !! id = Some old ->
     UserUpdate.Valid upd = enil ->
     fault st = enil ->
     exists (new : User.t) (st' : Store),
       UpdateUser Error_Error id upd st = (Ok new, st') /\
       records st' !! id = Some new /\
       User.ID new = User.ID old /\
       User.OAuthID new = User.OAuthID old /\
       User.Name new =
         match UserUpdate.Name upd with
         | Some n => n
         | None => User.Name old
         end /\
       User.Status new =
         match UserUpdate.Status upd with
         | Some s => s
         | None => User.Status old
         end) /\
  (forall id' : ID,
     id' <> id ->
     records (snd (UpdateUser Error_Error id upd st)) !! id' =
       records st !! id') /\
  (forall (e : error) (st' : Store),
     UpdateUser Error_Error id upd st = (Fail e, st') ->
     records st' = records st).
Proof.
  split; [| split].
  - intros old Hold Hv Hf. rewrite UpdateUser_eq, Hv, Hf, Hold. cbn.
    eexists _, _. split; [reflexivity |]. cbn.
    split; [apply lookup_insert_eq |]. repeat split.
  - intros id' Hne.
    destruct (UpdateUser_records id upd st) as [-> | (old & _ & ->)];
      [reflexivity |].
    cbn. now apply lookup_insert_ne.
  - intros e st' H.
    destruct (UpdateUser_records id upd st) as [Hr | (old & _ & Hr)];
      rewrite H in Hr; [exact Hr | discriminate].
Qed.

(** C7. After a successful [CreateUser] of [u], [FindUserByID] of the
    identifier it assigned succeeds and returns the user the caller holds
    after the creation, whose [Name], [OAuthID] and [Status] are those of
    [u]; the lookup leaves the records as they are. *)
Theorem CreateUser_FindUserByID (st st' : Store) (u u' : User.t) :
  CreateUser Error_Error u st = (Ok u', st') ->
  exists st'' : Store,
    FindUserByID Error_Error (User.ID u') st' = (Ok u', st'') /\
    records st'' = records st' /\
    User.Name u' = User.Name u /\
    User.OAuthID u' = User.OAuthID u /\
    User.Status u' = User.Status u.
Proof.
  intros H. destruct (CreateUser_Ok_inv _ _ _ _ H) as (_ & Hf & -> & ->).
  rewrite FindUserByID_eq. cbn. rewrite Hf. cbn.
  rewrite lookup_insert_eq. eexists. repeat split.
Qed.

End ServiceProperties.

Lemma CreateUser_spec_witness :
  (exists e : Error,
     CreateUser Msg (User.mk 0%N "Alice" "" "pending") empty_store =
       (Fail (as_error e), empty_store) /\
     Code e = EInvalid) /\
  (exists (u' : User.t) (st' : Store),
     CreateUser Msg (User.mk 0%N "Alice" "" "active") empty_store =
       (Ok u', st') /\
     calls st' =
       (calls empty_store ++
        [CallInsert (User.mk 0%N "Alice" "" "active")])%list).
Proof.
  split.
  - apply (proj1 (CreateUser_spec Msg empty_store
                    (User.mk 0%N "Alice" "" "pending"))).
    simpl. discriminate.
  - apply (proj1 (proj2 (CreateUser_spec Msg empty_store
                           (User.mk 0%N "Alice" "" "active"))));
      reflexivity.
Defined.

Lemma UpdateUser_spec_witness :
  exists (new : User.t) (st' : Store),
    UpdateUser Msg 1%N (UserUpdate.mk (Some "Bob") None)
      (mkStore {[ 1%N := User.mk 1%N "Alice" "" "active" ]} 1%N [] enil) =
      (Ok new, st') /\
    records st' !! 1%N = Some new /\
    User.ID new = 1%N /\
    User.OAuthID new = "" /\
    User.Name new = "Bob" /\
    User.Status new = "active".
Proof.
  apply (proj1 (UpdateUser_spec Msg
                  (mkStore {[ 1%N := User.mk 1%N "Alice" "" "active" ]}
                     1%N [] enil)
                  1%N (UserUpdate.mk (Some "Bob") None))
           (User.mk 1%N "Alice" "" "active"));
    reflexivity.
Defined.

Lemma CreateUser_FindUserByID_witness :
  exists st'' : Store,
    FindUserByID Msg 1%N
      (mkStore {[ 1%N := User.mk 1%N "Alice" "" "active" ]} 1%N
         [CallInsert (User.mk 0%N "Alice" "" "active")] enil) =
      (Ok (User.mk 1%N "Alice" "" "active"), st'') /\
    records st'' = {[ 1%N := User.mk 1%N "Alice" "" "active" ]} /\
    "Alice" = "Alice" /\ "" = "" /\ "active" = "active".
Proof.
  exact (CreateUser_FindUserByID Msg empty_store
           (mkStore {[ 1%N := User.mk 1%N "Alice" "" "active" ]} 1%N
              [CallInsert (User.mk 0%N "Alice" "" "active")] enil)
           (User.mk 0%N "Alice" "" "active")
           (User.mk 1%N "Alice" "" "active")
           eq_refl).
Defined.

(** * Further properties of user.go *)

(** ** Status validation *)

(** X1. [UserStatus.Valid] reports every rejected status with one and the
    same error: the error does not depend on the rejected string, names no
    operation and wraps no cause. *)
Theorem UserStatus_Valid_error_uniform (s1 s2 : UserStatus) :
  UserStatus.Valid s1 <> enil ->
  UserStatus.Valid s2 <> enil ->
  UserStatus.Valid s1 = UserStatus.Valid s2 /\
  cause (UserStatus.Valid s1) = enil /\
  exists e : Error,
    UserStatus.Valid s1 = as_error e /\ Op e = "" /\ Err e = enil.
Proof.
  intros H1 H2.
  destruct (UserStatus_Valid_cases s1) as [E1 | E1]; [contradiction |].
  destruct (UserStatus_Valid_cases s2) as [E2 | E2]; [contradiction |].
  rewrite E1, E2. repeat split.
  exists (mkError EInvalid "Invalid user status" "" enil). repeat split.
Qed.

Lemma UserStatus_Valid_error_uniform_witness :
  UserStatus.Valid "pending" = UserStatus.Valid "Active" /\
  cause (UserStatus.Valid "pending") = enil /\
  exists e : Error,
    UserStatus.Valid "pending" = as_error e /\ Op e = "" /\ Err e = enil.
Proof.
  apply (UserStatus_Valid_error_uniform "pending" "Active");
    simpl; discriminate.
Defined.

(** X2. The comparison of [UserStatus.Valid] is exact: a valid status
    followed by at least one more byte (a trailing space or newline, say)
    is not valid, and neither is the empty string. *)
Theorem UserStatus_Valid_no_suffix (s t : string) :
  UserStatus.Valid s = enil ->
  t <> "" ->
  UserStatus.Valid (s ++ t) <> enil /\ s <> "".
Proof.
  intros Hs Ht. apply UserStatus_Valid_nil in Hs. split.
  - intros H. apply UserStatus_Valid_nil in H.
    destruct t as [| c t]; [congruence |].
    destruct Hs as [-> | ->]; destruct H as [H | H]; cbn in H; discriminate.
  - destruct Hs as [-> | ->]; discriminate.
Qed.

Lemma UserStatus_Valid_no_suffix_witness :
  UserStatus.Valid ("active" ++ " ") <> enil /\ "active" <> "".
Proof.
  apply (UserStatus_Valid_no_suffix "active" " ");
    [reflexivity | discriminate].
Defined.

(** ** Changesets *)

(** X3. Validity is kept by a valid changeset: when [u.Valid()] and
    [upd.Valid()] both succeed, the user obtained from [u] by replacing the
    fields that are set in [upd] is valid again. *)
Theorem apply_update_Valid (u : User.t) (upd : UserUpdate.t) :
  User.Valid u = enil ->
  UserUpdate.Valid upd = enil ->
  User.Valid (apply_update upd u) = enil.
Proof.
  unfold User.Valid, UserUpdate.Valid, apply_update. cbn.
  destruct (UserUpdate.Status upd) as [s |]; intros Hu Hupd; assumption.
Qed.

Lemma apply_update_Valid_witness :
  User.Valid
    (apply_update (UserUpdate.mk (Some "Bob") (Some "inactive"))
       (User.mk 7%N "Alice" "oauth" "active")) = enil.
Proof.
  apply (apply_update_Valid (User.mk 7%N "Alice" "oauth" "active")
           (UserUpdate.mk (Some "Bob") (Some "inactive")));
    reflexivity.
Defined.

(** X4. The result of validating an updated user is decided by the
    changeset alone when it sets a status, in which case it is the result
    of [upd.Valid()] whatever the prior user was, and by the prior user
    alone when it sets none, in which case [upd.Valid()] succeeds and the
    updated user validates as the prior one did. *)
Theorem apply_update_Valid_source (u : User.t) (upd : UserUpdate.t) :
  User.Valid (apply_update upd u) =
    match UserUpdate.Status upd with
    | Some _ => UserUpdate.Valid upd
    | None => User.Valid u
    end /\
  (UserUpdate.Valid upd <> enil -> User.Valid (apply_update upd u) <> enil) /\
  (UserUpdate.Status upd = None -> UserUpdate.Valid upd = enil).
Proof.
  unfold User.Valid, UserUpdate.Valid, apply_update. cbn.
  destruct (UserUpdate.Status upd) as [s |]; repeat split; auto; congruence.
Qed.

Lemma apply_update_Valid_source_witness :
  User.Valid
    (apply_update (UserUpdate.mk None (Some "pending"))
       (User.mk 7%N "Alice" "oauth" "active")) <> enil /\
  UserUpdate.Valid (UserUpdate.mk (Some "Bob") None) = enil.
Proof.
  split.
  - apply (proj1 (proj2 (apply_update_Valid_source
                           (User.mk 7%N "Alice" "oauth" "active")
                           (UserUpdate.mk None (Some "pending"))))).
    simpl. discriminate.
  - apply (proj2 (proj2 (apply_update_Valid_source
                           (User.mk 7%N "Alice" "oauth" "active")
                           (UserUpdate.mk (Some "Bob") None)))).
    reflexivity.
Defined.

(** X5. A later changeset overrides an earlier one: when [upd2] sets every
    field that [upd1] sets, applying [upd1] and then [upd2] gives what
    [upd2] alone gives.  In particular applying a changeset twice is
    applying it once, and the changeset that sets no field changes
    nothing. *)
Theorem apply_update_override (u : User.t) (upd1 upd2 : UserUpdate.t) :
  (UserUpdate.Name upd2 = None -> UserUpdate.Name upd1 = None) ->
  (UserUpdate.Status upd2 = None -> UserUpdate.Status upd1 = None) ->
  apply_update upd2 (apply_update upd1 u) = apply_update upd2 u /\
  apply_update upd1 (apply_update upd1 u) = apply_update upd1 u /\
  apply_update (UserUpdate.mk None None) u = u.
Proof.
  destruct u as [id name oauth status], upd1 as [n1 s1], upd2 as [n2 s2].
  unfold apply_update. cbn. intros Hn Hs. split; [| split].
  - destruct n2 as [n2 |], s2 as [s2 |];
      try rewrite (Hn eq_refl); try rewrite (Hs eq_refl); reflexivity.
  - destruct n1, s1; reflexivity.
  - reflexivity.
Qed.

Lemma apply_update_override_witness :
  apply_update (UserUpdate.mk (Some "Carol") None)
    (apply_update (UserUpdate.mk (Some "Bob") None)
       (User.mk 7%N "Alice" "oauth" "active")) =
  apply_update (UserUpdate.mk (Some "Carol") None)
    (User.mk 7%N "Alice" "oauth" "active") /\
  apply_update (UserUpdate.mk (Some "Bob") None)
    (apply_update (UserUpdate.mk (Some "Bob") None)
       (User.mk 7%N "Alice" "oauth" "active")) =
  apply_update (UserUpdate.mk (Some "Bob") None)
    (User.mk 7%N "Alice" "oauth" "active") /\
  apply_update (UserUpdate.mk None None)
    (User.mk 7%N "Alice" "oauth" "active") =
  User.mk 7%N "Alice" "oauth" "active".
Proof.
  apply (apply_update_override (User.mk 7%N "Alice" "oauth" "active")
           (UserUpdate.mk (Some "Bob") None)
           (UserUpdate.mk (Some "Carol") None));
    simpl; [discriminate | reflexivity].
Defined.

(** X6. The two fields of a changeset are independent: a changeset that
    sets [Name] and [Status] has the effect of the changeset that sets only
    [Name] and the one that sets only [Status], applied in either order;
    and no changeset touches [ID] or [OAuthID]. *)
Theorem apply_update_split (u : User.t) (n : option string) (s : option Status) :
  apply_update (UserUpdate.mk n s) u =
    apply_update (UserUpdate.mk n None)
      (apply_update (UserUpdate.mk None s) u) /\
  apply_update (UserUpdate.mk n s) u =
    apply_update (UserUpdate.mk None s)
      (apply_update (UserUpdate.mk n None) u) /\
  User.ID (apply_update (UserUpdate.mk n s) u) = User.ID u /\
  User.OAuthID (apply_update (UserUpdate.mk n s) u) = User.OAuthID u.
Proof.
  destruct u as [id name oauth status].
  unfold apply_update. cbn. repeat split.
Qed.

(** ** The external representation *)



(** X8. The representation of a user has between two and four members and
    no member name occurs twice in it. *)
Theorem User_Marshal_names (u : User.t) :
  NoDup (map fst (User_Marshal u)) /\
  2 <= length (User_Marshal u) <= 4.
Proof.
  unfold User_Marshal, User_fields. cbn.
  destruct (N.eqb (User.ID u) 0), (String.eqb (User.OAuthID u) "");
    cbn; (split; [| lia]);
    repeat (apply NoDup_cons_2;
            [rewrite ?elem_of_cons, elem_of_nil; intuition discriminate |]);
    apply NoDup_nil_2.
Qed.

(** ** Error wrapping *)

Section WrappingProperties.

Variable Error_Error : Error -> string.

(** X9. The message of [ErrInternalUserServiceError] depends on the cause
    alone, through what [%v] prints for it: the operation name never
    appears in the message, and two results have the same message exactly
    when their causes print the same. *)
Theorem ErrInternalUserServiceError_Msg_cause
    (op1 op2 : string) (err1 err2 : error) :
  Msg (ErrInternalUserServiceError Error_Error op1 err1) =
    Msg (ErrInternalUserServiceError Error_Error op2 err2) <->
  format_v Error_Error err1 = format_v Error_Error err2.
Proof.
  unfold ErrInternalUserServiceError. cbn [Msg].
  rewrite !Sprintf_users. split.
  - intros H. cbn in H. now injection H.
  - now intros ->.
Qed.

(** X10. Errors wrapped by [ErrInternalUserServiceError] nest: after one
    wrapping for each operation of [ops], the chain of causes is longer by
    the number of wrappings, and following the field [Err] that many times
    gives back the error that was wrapped first. *)
Theorem wrap_all_cause (ops : list string) (err : error) :
  depth (wrap_all Error_Error ops err) = length ops + depth err /\
  Nat.iter (length ops) cause (wrap_all Error_Error ops err) = err.
Proof.
  induction ops as [| op ops [IHd IHc]]; [split; reflexivity |].
  split.
  - cbn. now rewrite IHd.
  - cbn [length]. rewrite Nat.iter_succ_r. exact IHc.
Qed.

End WrappingProperties.
